(** * ASF strategy measurements (daemon/fw/asf-measurements.hpp)

    A shallow embedding of [FaceInfo], [NamespaceInfo] and [AsfMeasurements]
    from the header, together with the collaborators they lean on: the event
    scheduler that owns the timers, the RTT estimator, and the name-indexed
    measurements table.  Of [NamespaceInfo] the header defines the
    constructor and the probing flags; its operations on the face map are
    only declared there and are not modelled. *)

From Stdlib Require Import ZArith.
From stdpp Require Import base option list strings gmap.
From Equations Require Import Equations.

Local Open Scope Z_scope.

(** ** Durations and names *)

(** [time::nanoseconds] and [time::milliseconds] are signed tick counts. *)
Abbreviation nanoseconds := Z.
Abbreviation milliseconds := Z.

(** [5_min] as [time::milliseconds]: the duration cast multiplies by
    60 s/min and 1000 ms/s. *)
Definition minutes_to_ms (m : Z) : milliseconds := m * 60 * 1000.

(** A [Name] is a sequence of components. *)
Abbreviation Name := (list string).

(** ** The event scheduler

    The scheduler belongs to the ndn-cxx library.  Its interface is
    [schedule(duration, callback) -> handle] and [cancel(handle)]; a handle
    converts to [true] exactly while its event is still waiting.  The model
    keeps every event ever scheduled in a log; a handle is an index into the
    log, so a handle whose event was cancelled or has fired stays stale for
    ever, like the expired weak pointer inside an [EventId]. *)

Inductive EventStatus := Waiting | Cancelled | Fired.

#[global] Instance EventStatus_eq_dec : EqDecision EventStatus.
Proof. solve_decision. Defined.

Definition EventId := nat.

(** [ScopedEventId]: an empty handle or the handle of one event. *)
Definition ScopedEventId := option EventId.

Section Scheduler.
(** The callbacks are opaque to the scheduler. *)
Context {CB : Type}.

Record EventInfo := mkEvent {
  ev_expiry : nanoseconds;
  ev_callback : CB;
  ev_status : EventStatus
}.

Record Scheduler := mkScheduler {
  sch_now : nanoseconds;
  sch_events : list EventInfo
}.

Definition is_waiting (ev : EventInfo) : bool :=
  bool_decide (ev_status ev = Waiting).

Definition set_status (st : EventStatus) (ev : EventInfo) : EventInfo :=
  mkEvent (ev_expiry ev) (ev_callback ev) st.

(** [Scheduler::schedule(after, callback)]. *)
Definition schedule (s : Scheduler) (after : nanoseconds) (cb : CB)
  : EventId * Scheduler :=
  (length (sch_events s),
   mkScheduler (sch_now s)
     (sch_events s ++ [mkEvent (sch_now s + after) cb Waiting])).

(** [EventId::cancel()]: cancelling an event that is not waiting does
    nothing. *)
Definition cancel_event (s : Scheduler) (id : EventId) : Scheduler :=
  match sch_events s !! id with
  | Some ev =>
      if is_waiting ev
      then mkScheduler (sch_now s)
             (<[id := set_status Cancelled ev]> (sch_events s))
      else s
  | None => s
  end.

(** [ScopedEventId::cancel()]. *)
Definition cancel (s : Scheduler) (h : ScopedEventId) : Scheduler :=
  match h with
  | Some id => cancel_event s id
  | None => s
  end.

(** [ScopedEventId::operator bool]. *)
Definition handle_valid (s : Scheduler) (h : ScopedEventId) : bool :=
  match h with
  | Some id =>
      match sch_events s !! id with
      | Some ev => is_waiting ev
      | None => false
      end
  | None => false
  end.

(** A handle that this scheduler has given out names an event of its log;
    so does, trivially, the empty handle. *)
Definition handle_in_log (s : Scheduler) (h : ScopedEventId) : Prop :=
  match h with
  | Some id => (id < length (sch_events s))%nat
  | None => True
  end.

(** The events that may still fire, oldest first, with their handles. *)
Definition waiting_events (s : Scheduler) : list (EventId * EventInfo) :=
  filter (λ p, ev_status p.2 = Waiting) (imap pair (sch_events s)).

(** Events are dispatched by expiry time; events with equal expiry run in
    the order they were scheduled. *)
Fixpoint insert_by_expiry (p : EventId * EventInfo)
    (q : list (EventId * EventInfo)) : list (EventId * EventInfo) :=
  match q with
  | [] => [p]
  | p' :: q' =>
      if ev_expiry p.2 <? ev_expiry p'.2
      then p :: q
      else p' :: insert_by_expiry p q'
  end.

Definition dispatch_order (l : list (EventId * EventInfo))
  : list (EventId * EventInfo) :=
  foldl (λ q p, insert_by_expiry p q) [] l.

Definition is_due (now : nanoseconds) (ev : EventInfo) : bool :=
  is_waiting ev && (ev_expiry ev <=? now).

(** Let [dt] pass and run the loop: every waiting event whose time has
    come fires once, in dispatch order. *)
Definition fired_events (s : Scheduler) (dt : nanoseconds)
  : list (EventId * EventInfo) :=
  dispatch_order
    (filter (λ p, ev_expiry p.2 ≤ sch_now s + dt) (waiting_events s)).

(** The callbacks that ran, in order, and the scheduler afterwards. *)
Definition advance (s : Scheduler) (dt : nanoseconds) : list CB * Scheduler :=
  let now := sch_now s + dt in
  (ev_callback ∘ snd <$> fired_events s dt,
   mkScheduler now
     ((λ ev, if is_due now ev then set_status Fired ev else ev)
        <$> sch_events s)).

(** The loop run over several stretches of time, with nothing scheduled in
    between: all the events that fired, in order, and the scheduler at the
    end. *)
Fixpoint run (s : Scheduler) (dts : list nanoseconds)
  : list (EventId * EventInfo) * Scheduler :=
  match dts with
  | [] => ([], s)
  | dt :: dts' =>
      let r := run (advance s dt).2 dts' in
      (fired_events s dt ++ r.1, r.2)
  end.
End Scheduler.

Arguments EventInfo : clear implicits.
Arguments Scheduler : clear implicits.

(** ** The RTT estimator

    [ndn::util::RttEstimator] is a collaborator from ndn-cxx: it is built
    from shared options, takes samples and gives back a smoothed value.
    Its arithmetic is not part of this header, so it is an interface. *)

Class RttEstimatorOps (Options Estimator : Type) := {
  newRttEstimator : Options → Estimator;
  addMeasurement : Estimator → nanoseconds → Estimator;
  getSmoothedRtt : Estimator → nanoseconds
}.

(** An estimator that keeps every sample it was fed, newest first, and
    smooths with weight 1/8 on the new sample. *)
Definition sample_log := list nanoseconds.

Fixpoint smoothed_of_log (l : sample_log) : nanoseconds :=
  match l with
  | [] => -1
  | [x] => x
  | x :: l' => (7 * smoothed_of_log l' + x) `div` 8
  end.

#[global] Instance sample_log_estimator : RttEstimatorOps unit sample_log := {
  newRttEstimator _ := [];
  addMeasurement l rtt := rtt :: l;
  getSmoothedRtt := smoothed_of_log
}.

(** ** FaceInfo *)

Definition RTT_NO_MEASUREMENT : nanoseconds := -1.
Definition RTT_TIMEOUT : nanoseconds := -2.

Section FaceInfo.
Context {Options Estimator : Type} `{!RttEstimatorOps Options Estimator}.
Context {CB : Type}.

Record FaceInfo := mkFaceInfo {
  m_rttEstimator : Estimator;
  m_lastRtt : nanoseconds;
  m_lastInterestName : Name;
  m_nTimeouts : N;
  m_measurementExpiration : ScopedEventId;
  m_timeoutEvent : ScopedEventId
}.

(** The constructor; the members without a mem-initializer take their
    in-class initializers, and a default [ScopedEventId] is empty. *)
Definition newFaceInfo (opts : Options) : FaceInfo :=
  mkFaceInfo (newRttEstimator opts) RTT_NO_MEASUREMENT [] 0%N None None.

Definition isTimeoutScheduled (s : Scheduler CB) (fi : FaceInfo) : bool :=
  handle_valid s (m_timeoutEvent fi).

Definition getLastRtt (fi : FaceInfo) : nanoseconds := m_lastRtt fi.

Definition getSrtt (fi : FaceInfo) : nanoseconds :=
  getSmoothedRtt (m_rttEstimator fi).

Definition getNTimeouts (fi : FaceInfo) : N := m_nTimeouts fi.

Definition setNTimeouts (fi : FaceInfo) (nTimeouts : N) : FaceInfo :=
  mkFaceInfo (m_rttEstimator fi) (m_lastRtt fi) (m_lastInterestName fi)
    nTimeouts (m_measurementExpiration fi) (m_timeoutEvent fi).

Definition recordRtt (fi : FaceInfo) (rtt : nanoseconds) : FaceInfo :=
  mkFaceInfo (addMeasurement (m_rttEstimator fi) rtt) rtt
    (m_lastInterestName fi) (m_nTimeouts fi)
    (m_measurementExpiration fi) (m_timeoutEvent fi).

(** Modelled from the spec: [FaceInfo::cancelTimeout] is declared in the
    header and defined elsewhere.  "Cancels the pending timer if any; a
    no-op if none is pending." *)
Definition cancelTimeout (fi : FaceInfo) (s : Scheduler CB) (prefix : Name)
  : FaceInfo * Scheduler CB :=
  (fi, cancel s (m_timeoutEvent fi)).

(** Modelled from the spec: [FaceInfo::scheduleTimeout] is declared in the
    header and defined elsewhere.  "Arms a new one-shot
    retransmission-timeout timer for [requestName] after a duration
    computed by the caller and returns the duration scheduled.
    Overwrites, cancelling first, any previously pending timeout timer."
    The declaration has no duration argument; the duration is decided
    outside this class, so the model receives it as [rto]. *)
Definition scheduleTimeout (fi : FaceInfo) (s : Scheduler CB)
    (rto : nanoseconds) (interestName : Name) (cb : CB)
  : nanoseconds * FaceInfo * Scheduler CB :=
  let s1 := cancel s (m_timeoutEvent fi) in
  let '(id, s2) := schedule s1 rto cb in
  (rto,
   mkFaceInfo (m_rttEstimator fi) (m_lastRtt fi) interestName
     (m_nTimeouts fi) (m_measurementExpiration fi) (Some id),
   s2).

Definition recordTimeout (fi : FaceInfo) (s : Scheduler CB)
    (interestName : Name) : FaceInfo * Scheduler CB :=
  let fi1 :=
    mkFaceInfo (m_rttEstimator fi) RTT_TIMEOUT (m_lastInterestName fi)
      (m_nTimeouts fi) (m_measurementExpiration fi) (m_timeoutEvent fi) in
  cancelTimeout fi1 s interestName.

(** The mutating operations of the class, as a caller can issue them. *)
Inductive FaceInfoOp :=
| OpScheduleTimeout (rto : nanoseconds) (interestName : Name) (cb : CB)
| OpCancelTimeout (prefix : Name)
| OpRecordRtt (rtt : nanoseconds)
| OpRecordTimeout (interestName : Name)
| OpSetNTimeouts (nTimeouts : N).

Definition apply_op (st : FaceInfo * Scheduler CB) (op : FaceInfoOp)
  : FaceInfo * Scheduler CB :=
  let '(fi, s) := st in
  match op with
  | OpScheduleTimeout rto n cb =>
      let '(_, fi', s') := scheduleTimeout fi s rto n cb in (fi', s')
  | OpCancelTimeout p => cancelTimeout fi s p
  | OpRecordRtt rtt => (recordRtt fi rtt, s)
  | OpRecordTimeout n => recordTimeout fi s n
  | OpSetNTimeouts k => (setNTimeouts fi k, s)
  end.

Definition apply_ops (st : FaceInfo * Scheduler CB) (ops : list FaceInfoOp)
  : FaceInfo * Scheduler CB :=
  foldl apply_op st ops.

(** [lastRtt] is a sentinel or a positive duration. *)
Definition lastRtt_valid (rtt : nanoseconds) : Prop :=
  rtt = RTT_NO_MEASUREMENT ∨ rtt = RTT_TIMEOUT ∨ 0 < rtt.

(** The callers' obligation: every sample handed to [recordRtt] is a
    positive duration. *)
Definition positive_sample (op : FaceInfoOp) : Prop :=
  match op with
  | OpRecordRtt rtt => 0 < rtt
  | _ => True
  end.

(** The events waiting in the scheduler apart from the timeout of [fi]. *)
Definition other_waiting_events (fi : FaceInfo) (s : Scheduler CB)
  : list (EventId * EventInfo CB) :=
  waiting_events (cancel s (m_timeoutEvent fi)).

Definition schedule_op (c : nanoseconds * Name * CB) : FaceInfoOp :=
  OpScheduleTimeout c.1.1 c.1.2 c.2.
End FaceInfo.

Arguments FaceInfo : clear implicits.
Arguments FaceInfoOp : clear implicits.

(** ** The measurements table

    The table is reached through [MeasurementsAccessor]; neither is part of
    the header.  An entry is keyed by its name and carries its own expiry
    time; the entry of the empty name is the root.  The table need not hold
    an entry for every name: a name without an entry has no expiry. *)

Record Measurements := mkMeasurements {
  ms_now : milliseconds;
  ms_expiry : gmap Name milliseconds
}.

(** Modelled from the spec: the accessor operation
    [extendEntryLifetime(entry, duration)], whose code is not in the header.
    After it the entry "will not expire before [duration] elapses from this
    call"; an expiry that is already later stays, and where the table holds
    no entry under the name there is nothing to extend. *)
Definition extendEntryLifetime (ms : Measurements) (me : Name)
    (lifetime : milliseconds) : Measurements :=
  mkMeasurements (ms_now ms)
    (alter (Z.max (ms_now ms + lifetime)) me (ms_expiry ms)).

(** Modelled from the spec: the accessor operation
    [getEntryParent(entry) -> optional<Entry>], whose code is not in the
    header: the place one component shorter, none for the root alone.
    Whether the table holds an entry there does not stop the way up. *)
Definition getEntryParent (me : Name) : option Name :=
  match me with
  | [] => None
  | _ :: _ => Some (removelast me)
  end.

(** ** AsfMeasurements *)

(** A call either returns or stops the process at a failed assertion. *)
Inductive Outcome (A : Type) :=
| Returns (a : A)
| AssertionFailed (expr : string).
Arguments Returns {A} a.
Arguments AssertionFailed {A} expr.

#[global] Instance Outcome_ret : MRet Outcome := λ A a, Returns a.
#[global] Instance Outcome_bind : MBind Outcome := λ A B k m,
  match m with
  | Returns a => k a
  | AssertionFailed e => AssertionFailed e
  end.

(** [BOOST_ASSERT(expr)] with assertions compiled in: a false [expr]
    aborts. *)
Definition BOOST_ASSERT (expr : string) (holds : bool) : Outcome unit :=
  if holds then Returns () else AssertionFailed expr.

Definition DEFAULT_MEASUREMENTS_LIFETIME : milliseconds := minutes_to_ms 5.

Section AsfMeasurements.
Context {Options : Type}.

(** [m_measurements] is a reference to the shared table, which the
    operations below take and give back explicitly. *)
Record AsfMeasurements := mkAsfMeasurements {
  m_measurementsLifetime : milliseconds;
  m_rttEstimatorOpts : Options
}.

(** Modelled from the spec: the constructor is declared in the header and
    defined elsewhere.  It binds the table and creates the shared
    estimator options once ([opts]); [m_measurementsLifetime] has the
    in-class initializer [DEFAULT_MEASUREMENTS_LIFETIME] in the header. *)
Definition newAsfMeasurements (opts : Options) : AsfMeasurements :=
  mkAsfMeasurements DEFAULT_MEASUREMENTS_LIFETIME opts.

Definition setMeasurementsLifetime (a : AsfMeasurements)
    (measurementsLifetime : milliseconds) : Outcome AsfMeasurements :=
  BOOST_ASSERT "measurementsLifetime > 0_ms" (0 <? measurementsLifetime) ;;
  mret (mkAsfMeasurements measurementsLifetime (m_rttEstimatorOpts a)).

Definition getMeasurementsLifetime (a : AsfMeasurements) : milliseconds :=
  m_measurementsLifetime a.

(** Modelled from the spec: [AsfMeasurements::extendLifetime] is declared
    in the header and defined elsewhere.  "Extends the given store entry's
    own expiry and recursively extends every strict ancestor of that entry
    up to the store's root." *)
Equations? extend_upwards (lifetime : milliseconds) (ms : Measurements)
    (me : Name) : Measurements by wf (length me) lt :=
  extend_upwards lifetime ms me
    with Equations.Prop.Logic.inspect (getEntryParent me) := {
    | exist _ (Some parent) Hp =>
        extend_upwards lifetime (extendEntryLifetime ms me lifetime) parent
    | exist _ None _ => extendEntryLifetime ms me lifetime }.
Proof.
  destruct me as [|c me]; [done|]. unfold getEntryParent in Hp.
  injection Hp as <-. clear. revert c.
  induction me as [|c' me IH]; intros c; [simpl; lia|].
  change (removelast (c :: c' :: me)) with (c :: removelast (c' :: me)).
  specialize (IH c'). simpl length in *. lia.
Qed.

Definition extendLifetime (a : AsfMeasurements) (ms : Measurements)
    (me : Name) : Measurements :=
  extend_upwards (m_measurementsLifetime a) ms me.
End AsfMeasurements.

Arguments AsfMeasurements : clear implicits.

(** ** Runs of the inline mutators of FaceInfo

    [recordRtt] and [setNTimeouts] are defined in the header in full and
    need no scheduler; a caller may interleave them at will. *)

Section FaceInfoUpdates.
Context {Options Estimator : Type} `{!RttEstimatorOps Options Estimator}.

Inductive FaceInfoUpdate :=
| URecordRtt (rtt : nanoseconds)
| USetNTimeouts (nTimeouts : N).

Definition apply_update (fi : FaceInfo Estimator) (u : FaceInfoUpdate)
  : FaceInfo Estimator :=
  match u with
  | URecordRtt rtt => recordRtt fi rtt
  | USetNTimeouts nTimeouts => setNTimeouts fi nTimeouts
  end.

Definition apply_updates (fi : FaceInfo Estimator)
    (us : list FaceInfoUpdate) : FaceInfo Estimator :=
  foldl apply_update fi us.

(** The samples handed to [recordRtt], in call order. *)
Definition recorded_samples (us : list FaceInfoUpdate) : list nanoseconds :=
  omap (λ u, match u with URecordRtt rtt => Some rtt | _ => None end) us.

(** The values handed to [setNTimeouts], in call order. *)
Definition counter_settings (us : list FaceInfoUpdate) : list N :=
  omap (λ u, match u with USetNTimeouts k => Some k | _ => None end) us.
End FaceInfoUpdates.

(** ** NamespaceInfo

    The constructor, [getTypeId] and the four flag accessors are defined in
    the header; the operations on the face map are only declared there. *)

(** [FaceId] comes from face-common.hpp; it is an unsigned integer. *)
Abbreviation FaceId := N.

Section NamespaceInfo.
Context {Options Estimator : Type}.

(** The options member is [m_rttEstimatorOpts] in the source; the name is
    taken by the member of [AsfMeasurements]. *)
Record NamespaceInfo := mkNamespaceInfo {
  m_fiMap : gmap FaceId (FaceInfo Estimator);
  m_rttEstimatorOpts_ns : Options;
  m_measurementLifetime : milliseconds;
  m_isProbingDue : bool;
  m_isFirstProbeScheduled : bool
}.

Definition getTypeId : Z := 1030.

Definition newNamespaceInfo (opts : Options)
    (measurementLifetime : milliseconds) : NamespaceInfo :=
  mkNamespaceInfo ∅ opts measurementLifetime false false.

Definition isProbingDue (ni : NamespaceInfo) : bool := m_isProbingDue ni.

Definition setIsProbingDue (ni : NamespaceInfo) (isProbingDue : bool)
  : NamespaceInfo :=
  mkNamespaceInfo (m_fiMap ni) (m_rttEstimatorOpts_ns ni)
    (m_measurementLifetime ni) isProbingDue (m_isFirstProbeScheduled ni).

Definition isFirstProbeScheduled (ni : NamespaceInfo) : bool :=
  m_isFirstProbeScheduled ni.

Definition setIsFirstProbeScheduled (ni : NamespaceInfo) (isScheduled : bool)
  : NamespaceInfo :=
  mkNamespaceInfo (m_fiMap ni) (m_rttEstimatorOpts_ns ni)
    (m_measurementLifetime ni) (m_isProbingDue ni) isScheduled.

(** The two setters, as the forwarding pipeline issues them. *)
Inductive ProbeFlagOp :=
| OpSetIsProbingDue (isProbingDue : bool)
| OpSetIsFirstProbeScheduled (isScheduled : bool).

Definition apply_flag_op (ni : NamespaceInfo) (op : ProbeFlagOp)
  : NamespaceInfo :=
  match op with
  | OpSetIsProbingDue b => setIsProbingDue ni b
  | OpSetIsFirstProbeScheduled b => setIsFirstProbeScheduled ni b
  end.

Definition apply_flag_ops (ni : NamespaceInfo) (ops : list ProbeFlagOp)
  : NamespaceInfo :=
  foldl apply_flag_op ni ops.

Definition probing_due_settings (ops : list ProbeFlagOp) : list bool :=
  omap (λ op, match op with OpSetIsProbingDue b => Some b | _ => None end) ops.

Definition first_probe_settings (ops : list ProbeFlagOp) : list bool :=
  omap (λ op, match op with
              | OpSetIsFirstProbeScheduled b => Some b
              | _ => None
              end) ops.
End NamespaceInfo.

Arguments NamespaceInfo : clear implicits.

(** ** Runs of setMeasurementsLifetime *)

(** One [setMeasurementsLifetime] call after another; a failed assertion
    ends the run. *)
Fixpoint setMeasurementsLifetimes {Options : Type}
    (a : AsfMeasurements Options) (lifetimes : list milliseconds)
  : Outcome (AsfMeasurements Options) :=
  match lifetimes with
  | [] => mret a
  | l :: lifetimes' =>
      a' ← setMeasurementsLifetime a l; setMeasurementsLifetimes a' lifetimes'
  end.

(** ** Example states *)

(** A face with no history, a scheduler where another party has one event
    waiting, and a scheduler with nothing in it. *)
Definition example_face : FaceInfo sample_log := newFaceInfo ().

Definition idle_scheduler : Scheduler string := mkScheduler 0 [].

Definition busy_scheduler : Scheduler string :=
  (schedule idle_scheduler 30 "probe").2.

(** The face after arming a timeout while the probe is waiting. *)
Definition armed_face : FaceInfo sample_log * Scheduler string :=
  let r := scheduleTimeout example_face busy_scheduler 100 ["a"] "onTimeout" in
  (r.1.2, r.2).

Definition example_ops : list (FaceInfoOp string) :=
  [OpRecordRtt 50; OpScheduleTimeout 100 ["a"; "b"] "onTimeout";
   OpRecordTimeout ["a"; "b"]; OpRecordRtt 70; OpSetNTimeouts 3;
   OpCancelTimeout ["a"]].

(** A table holding [/a/b/c] and the three entries above it, at time 100. *)
Definition example_table : Measurements :=
  mkMeasurements 100
    (list_to_map
       [([], 10); (["a"], 20); (["a"; "b"], 500); (["a"; "b"; "c"], 7)]).

(** A table holding the root and [/a/b] but no entry for [/a]. *)
Definition sparse_table : Measurements :=
  mkMeasurements 100 (list_to_map [([], 10); (["a"; "b"], 7)]).

Definition example_asf : AsfMeasurements unit := mkAsfMeasurements 50 ().

Definition example_updates : list FaceInfoUpdate :=
  [URecordRtt 50; USetNTimeouts 2; URecordRtt 0; USetNTimeouts 5].

(** * Properties *)

(** ** Scheduler facts *)

Section SchedulerFacts.
Context {CB : Type}.
Implicit Types (s : Scheduler CB) (h : ScopedEventId) (ev : EventInfo CB).

Lemma is_waiting_set_status st ev :
  is_waiting (set_status st ev) = bool_decide (st = Waiting).
Proof. reflexivity. Qed.

Lemma cancel_event_length s id :
  length (sch_events (cancel_event s id)) = length (sch_events s).
Proof.
  unfold cancel_event. destruct (sch_events s !! id) as [ev|]; [|done].
  destruct (is_waiting ev); [|done]. simpl. by rewrite length_insert.
Qed.

Lemma cancel_length s h :
  length (sch_events (cancel s h)) = length (sch_events s).
Proof. destruct h; [apply cancel_event_length | done]. Qed.

Lemma cancel_now s h : sch_now (cancel s h) = sch_now s.
Proof.
  destruct h as [id|]; [|done]. unfold cancel, cancel_event.
  destruct (sch_events s !! id) as [ev|]; [|done].
  by destruct (is_waiting ev).
Qed.

(** A cancelled handle is no longer valid. *)
Lemma handle_valid_cancel s h : handle_valid (cancel s h) h = false.
Proof.
  destruct h as [id|]; [|done]. unfold cancel, cancel_event, handle_valid.
  destruct (sch_events s !! id) as [ev|] eqn:Hid.
  - destruct (is_waiting ev) eqn:Hw.
    + simpl. rewrite list_lookup_insert_eq by (by eapply lookup_lt_Some).
      reflexivity.
    + by rewrite Hid.
  - by rewrite Hid.
Qed.

(** Cancelling through a handle that is not valid changes nothing. *)
Lemma cancel_invalid s h : handle_valid s h = false → cancel s h = s.
Proof.
  destruct h as [id|]; [|done]. unfold cancel, cancel_event, handle_valid.
  destruct (sch_events s !! id) as [ev|]; [|done]. by intros ->.
Qed.

Lemma cancel_idemp s h : cancel (cancel s h) h = cancel s h.
Proof. apply cancel_invalid, handle_valid_cancel. Qed.

Lemma waiting_events_snoc now l ev :
  waiting_events (mkScheduler now (l ++ [ev])) =
  waiting_events (mkScheduler now l) ++
    (if is_waiting ev then [(length l, ev)] else []).
Proof.
  unfold waiting_events. simpl. rewrite imap_app, filter_app. f_equal.
  simpl. rewrite Nat.add_0_r. unfold is_waiting.
  rewrite filter_cons, filter_nil. simpl.
  destruct (decide (ev_status ev = Waiting)) as [Hw|Hw].
  - by rewrite bool_decide_true.
  - by rewrite bool_decide_false.
Qed.

(** Scheduling adds one waiting event and disturbs no other. *)
Lemma waiting_events_schedule s after cb :
  waiting_events (schedule s after cb).2 =
  waiting_events s ++
    [(length (sch_events s), mkEvent (sch_now s + after) cb Waiting)].
Proof.
  unfold schedule. simpl. rewrite waiting_events_snoc. by destruct s.
Qed.

(** Cancelling the event that was scheduled last gives back the waiting
    events from before it was scheduled. *)
Lemma waiting_events_cancel_scheduled s after cb :
  waiting_events (cancel (schedule s after cb).2 (Some (schedule s after cb).1)) =
  waiting_events s.
Proof.
  unfold schedule, cancel, cancel_event. simpl.
  rewrite lookup_app_r, Nat.sub_diag by done. simpl.
  rewrite insert_app_r_alt, Nat.sub_diag by done. simpl.
  rewrite waiting_events_snoc. simpl. rewrite app_nil_r. by destruct s.
Qed.

(** A handle cancelled before a new event is scheduled stays invalid. *)
Lemma handle_valid_schedule_cancel s h after cb :
  handle_in_log s h →
  handle_valid (schedule (cancel s h) after cb).2 h = false.
Proof.
  destruct h as [id|]; [|done]. intros Hlog.
  pose proof (handle_valid_cancel s (Some id)) as Hv.
  pose proof (cancel_length s (Some id)) as Hlen.
  unfold handle_valid, handle_in_log, schedule in *. cbn [snd sch_events].
  rewrite lookup_app_l by lia. exact Hv.
Qed.

Lemma handle_in_log_schedule s after cb :
  handle_in_log (schedule s after cb).2 (Some (schedule s after cb).1).
Proof. unfold handle_in_log, schedule. simpl. rewrite length_app. simpl. lia. Qed.

Lemma insert_by_expiry_perm (p : EventId * EventInfo CB) q :
  insert_by_expiry p q ≡ₚ p :: q.
Proof.
  induction q as [|p' q IH]; [done|]. simpl.
  destruct (ev_expiry p.2 <? ev_expiry p'.2); [done|].
  rewrite IH. apply Permutation_swap.
Qed.

Lemma dispatch_order_perm (l : list (EventId * EventInfo CB)) :
  dispatch_order l ≡ₚ l.
Proof.
  unfold dispatch_order.
  enough (∀ acc, foldl (λ q p, insert_by_expiry p q) acc l ≡ₚ acc ++ l) as H
    by apply (H []).
  induction l as [|p l IH]; intros acc; simpl.
  - by rewrite app_nil_r.
  - rewrite IH, insert_by_expiry_perm. simpl. apply Permutation_middle.
Qed.

(** Only events that are waiting fire. *)
Lemma fired_events_waiting s dt p :
  p ∈ fired_events s dt → p ∈ waiting_events s.
Proof.
  unfold fired_events. rewrite dispatch_order_perm.
  rewrite list_elem_of_filter. tauto.
Qed.

Lemma elem_of_waiting_events s id ev :
  (id, ev) ∈ waiting_events s ↔
  sch_events s !! id = Some ev ∧ ev_status ev = Waiting.
Proof.
  unfold waiting_events. rewrite list_elem_of_filter, elem_of_lookup_imap.
  simpl. split.
  - intros (Hw & i & ev' & Heq & Hi). injection Heq as -> ->. done.
  - intros [Hi Hw]. eauto.
Qed.

(** Cancelling through a handle takes exactly the event it names out of
    the waiting events. *)
Lemma elem_of_waiting_events_cancel s h id ev :
  (id, ev) ∈ waiting_events (cancel s h) ↔
  (id, ev) ∈ waiting_events s ∧ h ≠ Some id.
Proof.
  destruct h as [id0|]; [|simpl; intuition congruence].
  rewrite !elem_of_waiting_events. unfold cancel, cancel_event.
  destruct (sch_events s !! id0) as [ev0|] eqn:Hid0.
  - destruct (is_waiting ev0) eqn:Hw0; simpl.
    + destruct (decide (id0 = id)) as [->|Hne].
      * rewrite list_lookup_insert_eq by (by eapply lookup_lt_Some).
        split; [|intuition congruence].
        intros [[= <-] Hw]. discriminate Hw.
      * rewrite list_lookup_insert_ne by done. intuition congruence.
    + split; [|tauto]. intros [Hid Hw]. split; [done|]. intros [= ->].
      rewrite Hid0 in Hid. injection Hid as ->.
      unfold is_waiting in Hw0. by rewrite bool_decide_true in Hw0.
  - split; [|tauto]. intros [Hid Hw]. split; [done|]. intros [= ->].
    by rewrite Hid0 in Hid.
Qed.

(** Running the loop makes no event wait that was not waiting before. *)
Lemma advance_waiting s dt p :
  p ∈ waiting_events (advance s dt).2 → p ∈ waiting_events s.
Proof.
  destruct p as [id ev]. rewrite !elem_of_waiting_events. simpl.
  rewrite list_lookup_fmap. intros [Hid Hw].
  apply fmap_Some in Hid as (ev0 & Hid & Hev).
  destruct (is_due (sch_now s + dt) ev0); subst ev.
  - discriminate Hw.
  - done.
Qed.

(** However long the loop runs, only events that were waiting at the start
    fire. *)
Lemma run_fires_waiting s dts p :
  p ∈ (run s dts).1 → p ∈ waiting_events s.
Proof.
  revert s. induction dts as [|dt dts IH]; intros s; simpl.
  - intros Hp. by apply not_elem_of_nil in Hp.
  - rewrite elem_of_app. intros [Hp|Hp].
    + by eapply fired_events_waiting.
    + apply (advance_waiting s dt), IH, Hp.
Qed.
End SchedulerFacts.

(** ** FaceInfo *)

Section FaceInfoFacts.
Context {Options Estimator : Type} `{!RttEstimatorOps Options Estimator}.
Context {CB : Type}.
Implicit Types (fi : FaceInfo Estimator) (s : Scheduler CB).
Implicit Types (op : FaceInfoOp CB).

Lemma cancelTimeout_invalid fi s prefix :
  isTimeoutScheduled s fi = false → cancelTimeout fi s prefix = (fi, s).
Proof.
  unfold isTimeoutScheduled, cancelTimeout. intros Hv.
  by rewrite cancel_invalid.
Qed.

Lemma cancelTimeout_unscheduled fi s prefix :
  isTimeoutScheduled (cancelTimeout fi s prefix).2
                     (cancelTimeout fi s prefix).1 = false.
Proof. apply handle_valid_cancel. Qed.

Lemma apply_ops_cons (st : FaceInfo Estimator * Scheduler CB) op ops :
  apply_ops st (op :: ops) = apply_ops (apply_op st op) ops.
Proof. reflexivity. Qed.

Lemma apply_op_lastRtt_valid fi s op :
  lastRtt_valid (getLastRtt fi) → positive_sample op →
  lastRtt_valid (getLastRtt (apply_op (fi, s) op).1).
Proof.
  intros Hfi Hop. destruct op as [rto n cb|p|rtt|n|k]; simpl; try exact Hfi.
  - right; right. exact Hop.
  - right; left. reflexivity.
Qed.

Lemma apply_ops_lastRtt_valid fi s (ops : list (FaceInfoOp CB)) :
  lastRtt_valid (getLastRtt fi) → Forall positive_sample ops →
  lastRtt_valid (getLastRtt (apply_ops (fi, s) ops).1).
Proof.
  intros Hfi Hops. revert fi s Hfi.
  induction Hops as [|op ops Hop _ IH]; intros fi s Hfi; [exact Hfi|].
  rewrite apply_ops_cons.
  pose proof (apply_op_lastRtt_valid fi s op Hfi Hop) as Hstep.
  destruct (apply_op (fi, s) op) as [fi' s']. by apply IH.
Qed.

(** One [scheduleTimeout]: the timeout that was waiting is gone, the new
    one is the only addition, and the handle names it. *)
Lemma scheduleTimeout_step fi s rto n cb :
  let r := scheduleTimeout fi s rto n cb in
  r.1.1 = rto ∧
  m_timeoutEvent r.1.2 = Some (length (sch_events s)) ∧
  sch_now r.2 = sch_now s ∧
  isTimeoutScheduled r.2 r.1.2 = true ∧
  waiting_events r.2 =
    other_waiting_events fi s ++
      [(length (sch_events s), mkEvent (sch_now s + rto) cb Waiting)] ∧
  other_waiting_events r.1.2 r.2 = other_waiting_events fi s.
Proof.
  unfold scheduleTimeout, other_waiting_events. simpl.
  pose proof (cancel_length s (m_timeoutEvent fi)) as Hlen.
  pose proof (cancel_now s (m_timeoutEvent fi)) as Hnow.
  generalize dependent (cancel s (m_timeoutEvent fi)). intros s1 Hlen Hnow.
  split_and!; try done.
  - by rewrite Hlen.
  - unfold isTimeoutScheduled, handle_valid. simpl.
    by rewrite lookup_app_r, Nat.sub_diag.
  - rewrite <- Hlen, <- Hnow. apply (waiting_events_schedule s1).
  - apply (waiting_events_cancel_scheduled s1).
Qed.

(** A run of [scheduleTimeout] calls leaves the other events alone. *)
Lemma scheduleTimeouts_others fi s calls :
  let st := apply_ops (fi, s) (schedule_op <$> calls) in
  other_waiting_events st.1 st.2 = other_waiting_events fi s ∧
  sch_now st.2 = sch_now s.
Proof.
  revert fi s. induction calls as [|[[rto n] cb] calls IH]; intros fi s.
  - done.
  - rewrite fmap_cons, apply_ops_cons.
    destruct (scheduleTimeout_step fi s rto n cb) as (_ & _ & Hnow & _ & _ & Hoth).
    change (apply_op (fi, s) (schedule_op (rto, n, cb)))
      with (let '(_, fi', s') := scheduleTimeout fi s rto n cb in (fi', s')).
    destruct (scheduleTimeout fi s rto n cb) as [[d fi'] s'].
    simpl in Hnow, Hoth. destruct (IH fi' s') as [IH1 IH2].
    split; [by rewrite IH1 | by rewrite IH2].
Qed.

Lemma scheduleTimeout_handle_in_log fi s rto n cb :
  let r := scheduleTimeout fi s rto n cb in
  handle_in_log r.2 (m_timeoutEvent r.1.2).
Proof. apply (handle_in_log_schedule (cancel s (m_timeoutEvent fi))). Qed.

(** The handle a FaceInfo holds after [scheduleTimeout] calls was given out
    by the scheduler it is used with. *)
Lemma scheduleTimeouts_handle_in_log fi s calls :
  calls ≠ [] ∨ handle_in_log s (m_timeoutEvent fi) →
  let st := apply_ops (fi, s) (schedule_op <$> calls) in
  handle_in_log st.2 (m_timeoutEvent st.1).
Proof.
  revert fi s. induction calls as [|[[rto n] cb] calls IH]; intros fi s Hlog.
  - by destruct Hlog.
  - rewrite fmap_cons, apply_ops_cons.
    pose proof (scheduleTimeout_handle_in_log fi s rto n cb) as Hstep.
    change (apply_op (fi, s) (schedule_op (rto, n, cb)))
      with (let '(_, fi', s') := scheduleTimeout fi s rto n cb in (fi', s')).
    destruct (scheduleTimeout fi s rto n cb) as [[d fi'] s'].
    apply IH. by right.
Qed.

(** C9.  A [FaceInfo] that has just been constructed reports no
    measurement, zero timeouts and no scheduled timeout. *)
Theorem newFaceInfo_initial_state (opts : Options) s :
  getLastRtt (newFaceInfo opts) = RTT_NO_MEASUREMENT ∧
  getNTimeouts (newFaceInfo opts) = 0%N ∧
  isTimeoutScheduled s (newFaceInfo opts) = false.
Proof. done. Qed.

(** C4.  After [recordRtt(d)] with [d] positive, [getLastRtt] is the raw
    sample [d], the estimator has been fed [d], and nothing about timers
    moved: the scheduler and both timer handles are as before, so
    [isTimeoutScheduled] answers as before. *)
Theorem recordRtt_effect fi s (d : nanoseconds) :
  0 < d →
  getLastRtt (recordRtt fi d) = d ∧
  m_rttEstimator (recordRtt fi d) = addMeasurement (m_rttEstimator fi) d ∧
  apply_op (fi, s) (OpRecordRtt d) = (recordRtt fi d, s) ∧
  m_timeoutEvent (recordRtt fi d) = m_timeoutEvent fi ∧
  m_measurementExpiration (recordRtt fi d) = m_measurementExpiration fi ∧
  isTimeoutScheduled s (recordRtt fi d) = isTimeoutScheduled s fi.
Proof. intros _. done. Qed.

(** C2.  After [recordTimeout(name)], [getLastRtt] is the [RTT_TIMEOUT]
    sentinel and no timeout is scheduled: the timeout that was pending has
    been cancelled.  The handle held before the call is no longer valid,
    the events still waiting are those that waited before apart from that
    timeout, and however long the loop runs afterwards the timeout's
    callback is not among the events that fire. *)
Theorem recordTimeout_effect fi s (name : Name) :
  getLastRtt (recordTimeout fi s name).1 = RTT_TIMEOUT ∧
  isTimeoutScheduled (recordTimeout fi s name).2
                     (recordTimeout fi s name).1 = false ∧
  isTimeoutScheduled (recordTimeout fi s name).2 fi = false ∧
  (∀ id ev, (id, ev) ∈ waiting_events (recordTimeout fi s name).2 ↔
            (id, ev) ∈ waiting_events s ∧ m_timeoutEvent fi ≠ Some id) ∧
  (∀ dts id ev, (id, ev) ∈ (run (recordTimeout fi s name).2 dts).1 →
                (id, ev) ∈ waiting_events s ∧ m_timeoutEvent fi ≠ Some id).
Proof.
  split; [done|]. split; [apply cancelTimeout_unscheduled|].
  split; [apply handle_valid_cancel|].
  split; [intros id ev; apply elem_of_waiting_events_cancel|].
  intros dts id ev Hfired. apply run_fires_waiting in Hfired.
  by apply elem_of_waiting_events_cancel in Hfired.
Qed.

(** C8.  [recordTimeout] leaves the timeout counter as it was; of all the
    operations only [setNTimeouts] changes what [getNTimeouts] returns. *)
Theorem recordTimeout_keeps_nTimeouts fi s (name : Name) :
  getNTimeouts (recordTimeout fi s name).1 = getNTimeouts fi ∧
  ∀ op, getNTimeouts (apply_op (fi, s) op).1 =
        match op with
        | OpSetNTimeouts k => k
        | _ => getNTimeouts fi
        end.
Proof. split; [done|]. by intros []. Qed.

(** C7.  With no timeout pending, [cancelTimeout(prefix)] returns and
    changes nothing, so still no timeout is scheduled; and from any state
    a second [cancelTimeout] changes nothing after the first. *)
Theorem cancelTimeout_noop_idempotent fi s (prefix : Name) :
  (isTimeoutScheduled s fi = false →
     cancelTimeout fi s prefix = (fi, s) ∧
     isTimeoutScheduled (cancelTimeout fi s prefix).2
                        (cancelTimeout fi s prefix).1 = false) ∧
  cancelTimeout (cancelTimeout fi s prefix).1
                (cancelTimeout fi s prefix).2 prefix =
  cancelTimeout fi s prefix.
Proof.
  split.
  - intros Hv. split; [by apply cancelTimeout_invalid|].
    apply cancelTimeout_unscheduled.
  - apply cancelTimeout_invalid, cancelTimeout_unscheduled.
Qed.

(** C6.  Starting from construction, as long as callers hand only
    positive samples to [recordRtt], [lastRtt] is after every sequence of
    operations one of the two sentinels or a positive duration. *)
Theorem lastRtt_invariant (opts : Options) s (ops : list (FaceInfoOp CB)) :
  Forall positive_sample ops →
  lastRtt_valid (getLastRtt (apply_ops (newFaceInfo opts, s) ops).1).
Proof. apply apply_ops_lastRtt_valid. by left. Qed.

(** C3.  After any run of [scheduleTimeout] calls followed by one more,
    the last call's event is the single addition to the events that were
    waiting apart from this FaceInfo's own timeout: every earlier timeout
    has been cancelled (the handle held before the last call is no longer
    valid), the handle now names the last event, and however long the loop
    runs only events of the others or that last one fire.  When nobody else
    has an event waiting, exactly the last callback runs once its time has
    come, and nothing runs before. *)
Theorem scheduleTimeout_single_pending fi s
    (calls : list (nanoseconds * Name * CB)) rto (name : Name) (cb : CB) :
  let st := apply_ops (fi, s) (schedule_op <$> calls) in
  let r := scheduleTimeout st.1 st.2 rto name cb in
  let id := length (sch_events st.2) in
  let ev := mkEvent (sch_now s + rto) cb Waiting in
  r.1.1 = rto ∧
  m_timeoutEvent r.1.2 = Some id ∧
  isTimeoutScheduled r.2 r.1.2 = true ∧
  (calls ≠ [] ∨ handle_in_log s (m_timeoutEvent fi) →
   isTimeoutScheduled r.2 st.1 = false) ∧
  waiting_events r.2 = other_waiting_events fi s ++ [(id, ev)] ∧
  (∀ dts p, p ∈ (run r.2 dts).1 →
            p ∈ other_waiting_events fi s ∨ p = (id, ev)) ∧
  (other_waiting_events fi s = [] →
   ∀ dt, (advance r.2 dt).1 = if decide (rto ≤ dt) then [cb] else []).
Proof.
  intros st r id ev.
  destruct (scheduleTimeouts_others fi s calls) as [Hoth Hnow].
  fold st in Hoth, Hnow.
  destruct (scheduleTimeout_step st.1 st.2 rto name cb)
    as (Hd & Hh & Hnow' & Hsched & Hw & _).
  fold r id in Hd, Hh, Hnow', Hsched, Hw.
  rewrite Hoth, Hnow in Hw. fold ev in Hw.
  split_and!; try done.
  - intros Hlog. apply (scheduleTimeouts_handle_in_log fi s calls) in Hlog.
    apply (handle_valid_schedule_cancel st.2 _ rto cb Hlog).
  - intros dts p Hp. apply run_fires_waiting in Hp.
    rewrite Hw, elem_of_app, list_elem_of_singleton in Hp. exact Hp.
  - intros Hnone dt.
    change (advance r.2 dt).1 with (ev_callback ∘ snd <$> fired_events r.2 dt).
    unfold fired_events. rewrite Hw, Hnone, Hnow', Hnow. simpl.
    rewrite filter_cons, filter_nil. simpl.
    destruct (decide (rto ≤ dt)) as [Hle|Hgt].
    + rewrite decide_True by lia. reflexivity.
    + rewrite decide_False by lia. reflexivity.
Qed.
End FaceInfoFacts.

(** ** AsfMeasurements *)

Lemma removelast_shorter {A} (c : A) (l : list A) :
  (length (removelast (c :: l)) < length (c :: l))%nat.
Proof.
  revert c. induction l as [|c' l IH]; intros c; [simpl; lia|].
  change (removelast (c :: c' :: l)) with (c :: removelast (c' :: l)).
  specialize (IH c'). simpl length in *. lia.
Qed.

Lemma getEntryParent_shorter me p :
  getEntryParent me = Some p → (length p < length me)%nat.
Proof.
  destruct me as [|c me]; [done|]. unfold getEntryParent.
  intros Hp. injection Hp as <-. apply removelast_shorter.
Qed.

Lemma prefix_removelast {A} (p me : list A) :
  me ≠ [] → p `prefix_of` me ↔ p = me ∨ p `prefix_of` removelast me.
Proof.
  intros Hne. destruct me as [|c me] using rev_ind; [done|]. clear IHme.
  rewrite removelast_last. split.
  - intros [k Hk]. destruct k as [|c' k _] using rev_ind.
    + left. by rewrite app_nil_r in Hk.
    + right. rewrite app_assoc in Hk. apply app_inj_tail in Hk as [-> _].
      by apply prefix_app_r.
  - intros [->|Hp]; [done | by apply prefix_app_r].
Qed.

Lemma extendEntryLifetime_lookup ms me lifetime (p : Name) :
  ms_expiry (extendEntryLifetime ms me lifetime) !! p =
  if decide (me = p)
  then Z.max (ms_now ms + lifetime) <$> ms_expiry ms !! p
  else ms_expiry ms !! p.
Proof.
  unfold extendEntryLifetime. simpl. rewrite lookup_alter.
  by case_decide; subst.
Qed.

Lemma getEntryParent_Some me parent :
  getEntryParent me = Some parent → me ≠ [] ∧ parent = removelast me.
Proof.
  destruct me as [|c me]; [done|]. unfold getEntryParent.
  intros Hp. injection Hp as <-. done.
Qed.

Lemma getEntryParent_None me : getEntryParent me = None → me = [].
Proof. by destruct me. Qed.

Lemma prefix_removelast_ne {A} (p me : list A) :
  me ≠ [] → p `prefix_of` removelast me → p ≠ me.
Proof.
  intros Hne Hp ->. apply prefix_length in Hp.
  destruct me as [|c me]; [done|].
  pose proof (removelast_shorter c me). lia.
Qed.

(** The table after the walk: exactly the entries on the path from [me] to
    the root have moved, each as [extendEntryLifetime] moves it. *)
Lemma extend_upwards_lookup lifetime ms me (p : Name) :
  ms_expiry (extend_upwards lifetime ms me) !! p =
  if decide (p `prefix_of` me)
  then Z.max (ms_now ms + lifetime) <$> ms_expiry ms !! p
  else ms_expiry ms !! p.
Proof.
  funelim (extend_upwards lifetime ms me).
  - destruct (getEntryParent_Some _ _ Hp) as (Hne & Hrm).
    match goal with IH : ∀ _, _ = _ |- _ => rewrite IH end.
    rewrite extendEntryLifetime_lookup. simpl. rewrite Hrm.
    pose proof (prefix_removelast p me Hne) as Hpre.
    pose proof (prefix_removelast_ne p me Hne) as Hpne.
    repeat case_decide; subst; try done; exfalso; intuition congruence.
  - assert (me = []) as Hnil by (by eapply getEntryParent_None).
    rewrite extendEntryLifetime_lookup.
    repeat case_decide; subst; try done.
    match goal with Hp : _ `prefix_of` [] |- _ =>
      apply prefix_nil_inv in Hp end. congruence.
Qed.

Section AsfMeasurementsFacts.
Context {Options : Type}.
Implicit Types (a : AsfMeasurements Options) (ms : Measurements).

(** C5.  [setMeasurementsLifetime(l)] with [l] zero or negative stops at
    the assertion; with [l] positive it returns, and
    [getMeasurementsLifetime] then gives [l]. *)
Theorem setMeasurementsLifetime_contract a (l : milliseconds) :
  (l ≤ 0 →
     setMeasurementsLifetime a l =
     AssertionFailed "measurementsLifetime > 0_ms") ∧
  (0 < l →
     ∃ a', setMeasurementsLifetime a l = Returns a' ∧
           getMeasurementsLifetime a' = l).
Proof.
  unfold setMeasurementsLifetime. split; intros Hl.
  - by rewrite (proj2 (Z.ltb_ge 0 l) Hl).
  - rewrite (proj2 (Z.ltb_lt 0 l) Hl). by eexists.
Qed.

(** C10.  Before any [setMeasurementsLifetime], [getMeasurementsLifetime]
    gives [DEFAULT_MEASUREMENTS_LIFETIME], which is five minutes. *)
Theorem default_measurementsLifetime (opts : Options) :
  getMeasurementsLifetime (newAsfMeasurements opts) =
    DEFAULT_MEASUREMENTS_LIFETIME ∧
  DEFAULT_MEASUREMENTS_LIFETIME = minutes_to_ms 5 ∧
  DEFAULT_MEASUREMENTS_LIFETIME = 300000.
Proof. done. Qed.

(** C1.  [extendLifetime(me)] extends the expiry of [me] and of every
    entry above it up to the root, whatever else the table holds: each
    entry on that path ends with the expiry [extendEntryLifetime] gives it,
    no earlier than the configured lifetime from now. *)
Theorem extendLifetime_extends_ancestors a ms (me anc : Name) :
  anc `prefix_of` me →
  ms_expiry (extendLifetime a ms me) !! anc =
    Z.max (ms_now ms + getMeasurementsLifetime a) <$> ms_expiry ms !! anc ∧
  ms_expiry (extendLifetime a ms me) !! anc =
    ms_expiry (extendEntryLifetime ms anc (getMeasurementsLifetime a))
      !! anc ∧
  ∀ e, ms_expiry ms !! anc = Some e →
       ms_expiry (extendLifetime a ms me) !! anc =
         Some (Z.max (ms_now ms + getMeasurementsLifetime a) e) ∧
       ms_now ms + getMeasurementsLifetime a ≤
         Z.max (ms_now ms + getMeasurementsLifetime a) e.
Proof.
  intros Hanc. unfold extendLifetime, getMeasurementsLifetime.
  rewrite extend_upwards_lookup, extendEntryLifetime_lookup.
  rewrite !decide_True by done. split_and!; try done.
  intros e ->. split; [done | lia].
Qed.
End AsfMeasurementsFacts.

(** ** The theorems at concrete inputs *)

Lemma recordRtt_effect_witness :
  0 < 50 ∧
  getLastRtt (recordRtt example_face 50) = 50 ∧
  m_rttEstimator (recordRtt example_face 50) = [50] ∧
  isTimeoutScheduled busy_scheduler (recordRtt example_face 50) = false.
Proof.
  assert (0 < 50) as Hpos by lia.
  destruct (recordRtt_effect example_face busy_scheduler 50 Hpos)
    as (Hlast & Hest & _ & _ & _ & Hsched).
  split; [exact Hpos|]. split; [exact Hlast|]. split; [exact Hest|].
  exact Hsched.
Defined.

(** A timeout is armed next to another party's probe; after
    [recordTimeout] only the probe is left to fire. *)
Lemma recordTimeout_effect_witness :
  let r := recordTimeout armed_face.1 armed_face.2 ["a"] in
  isTimeoutScheduled armed_face.2 armed_face.1 = true ∧
  getLastRtt r.1 = RTT_TIMEOUT ∧
  isTimeoutScheduled r.2 r.1 = false ∧
  ((0%nat, mkEvent 30 "probe" Waiting) ∈ waiting_events r.2) ∧
  (∀ ev, (1%nat, ev) ∉ (run r.2 [50; 1000]).1) ∧
  (advance r.2 1000).1 = ["probe"].
Proof.
  intros r.
  destruct (recordTimeout_effect armed_face.1 armed_face.2 ["a"])
    as (Hlast & Hnew & _ & Hwait & Hrun).
  fold r in Hlast, Hnew, Hwait, Hrun.
  split; [reflexivity|]. split; [exact Hlast|]. split; [exact Hnew|].
  split; [|split; [|reflexivity]].
  - apply Hwait. split; [|discriminate].
    apply elem_of_waiting_events. split; reflexivity.
  - intros ev Hfired. apply Hrun in Hfired as [_ Hne]. by apply Hne.
Defined.

Lemma cancelTimeout_noop_idempotent_witness :
  isTimeoutScheduled busy_scheduler example_face = false ∧
  cancelTimeout example_face busy_scheduler ["a"] =
    (example_face, busy_scheduler).
Proof.
  assert (isTimeoutScheduled busy_scheduler example_face = false) as Hno
    by reflexivity.
  split; [exact Hno|].
  exact (proj1 (proj1
    (cancelTimeout_noop_idempotent example_face busy_scheduler ["a"]) Hno)).
Defined.

Lemma lastRtt_invariant_witness :
  Forall positive_sample example_ops ∧
  lastRtt_valid
    (getLastRtt (apply_ops (newFaceInfo (), idle_scheduler) example_ops).1).
Proof.
  assert (Forall positive_sample example_ops) as Hops
    by (repeat constructor; simpl; lia).
  split; [exact Hops|].
  exact (lastRtt_invariant (Estimator := sample_log) () idle_scheduler
           example_ops Hops).
Defined.

(** Two [scheduleTimeout] calls in a row with a counting callback: when the
    loop has run, the callback has run once. *)
Lemma scheduleTimeout_single_pending_witness :
  other_waiting_events example_face idle_scheduler = [] ∧
  let first := scheduleTimeout example_face idle_scheduler 100 ["a"] "count" in
  let second := scheduleTimeout first.1.2 first.2 50 ["a"] "count" in
  isTimeoutScheduled second.2 first.1.2 = false ∧
  isTimeoutScheduled second.2 second.1.2 = true ∧
  (advance second.2 1000).1 = ["count"] ∧
  length (advance second.2 1000).1 = 1%nat.
Proof.
  assert (other_waiting_events example_face idle_scheduler = []) as Hnone
    by reflexivity.
  assert ([(100, ["a"], "count")] ≠ ([] : list (Z * Name * string))) as Hcalls
    by discriminate.
  split; [exact Hnone|].
  destruct (scheduleTimeout_single_pending example_face idle_scheduler
              [(100, ["a"], "count")] 50 ["a"] "count")
    as (_ & _ & Hnew & Hold & _ & _ & Hfire).
  pose proof (Hfire Hnone 1000) as Hrun.
  split; [exact (Hold (or_introl Hcalls))|]. split; [exact Hnew|].
  split; [exact Hrun|]. exact (f_equal length Hrun).
Defined.

Lemma setMeasurementsLifetime_contract_witness :
  (0 ≤ 0 ∧
   setMeasurementsLifetime example_asf 0 =
     AssertionFailed "measurementsLifetime > 0_ms") ∧
  (0 < 7 ∧
   ∃ a', setMeasurementsLifetime example_asf 7 = Returns a' ∧
         getMeasurementsLifetime a' = 7).
Proof.
  assert (0 ≤ 0) as Hzero by lia. assert (0 < 7) as Hpos by lia.
  split.
  - split; [exact Hzero|].
    exact (proj1 (setMeasurementsLifetime_contract example_asf 0) Hzero).
  - split; [exact Hpos|].
    exact (proj2 (setMeasurementsLifetime_contract example_asf 7) Hpos).
Defined.

(** An entry three levels deep: the entry and the three above it all end
    at time 150, except [/a/b], which already lasted longer.  In the table
    without an entry for [/a], the root is extended all the same. *)
Lemma extendLifetime_extends_ancestors_witness :
  ["a"] `prefix_of` ["a"; "b"; "c"] ∧
  ms_expiry (extendLifetime example_asf example_table ["a"; "b"; "c"])
    !! ["a"; "b"; "c"] = Some 150 ∧
  ms_expiry (extendLifetime example_asf example_table ["a"; "b"; "c"])
    !! ["a"; "b"] = Some 500 ∧
  ms_expiry (extendLifetime example_asf example_table ["a"; "b"; "c"])
    !! ["a"] = Some 150 ∧
  ms_expiry (extendLifetime example_asf example_table ["a"; "b"; "c"])
    !! [] = Some 150 ∧
  ms_expiry (extendLifetime example_asf sparse_table ["a"; "b"])
    !! ["a"; "b"] = Some 150 ∧
  ms_expiry (extendLifetime example_asf sparse_table ["a"; "b"])
    !! [] = Some 150.
Proof.
  assert (["a"] `prefix_of` ["a"; "b"; "c"]) as Ha by (by exists ["b"; "c"]).
  pose (ext := λ ms me anc e (Hanc : anc `prefix_of` me)
                   (He : ms_expiry ms !! anc = Some e),
    proj1 (proj2 (proj2
      (extendLifetime_extends_ancestors example_asf ms me anc Hanc)) e He)).
  split; [exact Ha|]. split_and!.
  - refine (ext example_table ["a"; "b"; "c"] ["a"; "b"; "c"] 7 _ _);
      [by exists [] | vm_compute; reflexivity].
  - refine (ext example_table ["a"; "b"; "c"] ["a"; "b"] 500 _ _);
      [by exists ["c"] | vm_compute; reflexivity].
  - refine (ext example_table ["a"; "b"; "c"] ["a"] 20 _ _);
      [exact Ha | vm_compute; reflexivity].
  - refine (ext example_table ["a"; "b"; "c"] [] 10 _ _);
      [by exists ["a"; "b"; "c"] | vm_compute; reflexivity].
  - refine (ext sparse_table ["a"; "b"] ["a"; "b"] 7 _ _);
      [by exists [] | vm_compute; reflexivity].
  - refine (ext sparse_table ["a"; "b"] [] 10 _ _);
      [by exists ["a"; "b"] | vm_compute; reflexivity].
Defined.

(** ** Runs of recordRtt and setNTimeouts *)

Section FaceInfoUpdateFacts.
Context {Options Estimator : Type} `{!RttEstimatorOps Options Estimator}.
Implicit Types (fi : FaceInfo Estimator) (us : list FaceInfoUpdate).

Lemma apply_updates_snoc fi us u :
  apply_updates fi (us ++ [u]) = apply_update (apply_updates fi us) u.
Proof. apply foldl_snoc. Qed.

Lemma recorded_samples_snoc us u :
  recorded_samples (us ++ [u]) =
  recorded_samples us ++
    match u with URecordRtt rtt => [rtt] | USetNTimeouts _ => [] end.
Proof. unfold recorded_samples. rewrite omap_app. by destruct u. Qed.

Lemma counter_settings_snoc us u :
  counter_settings (us ++ [u]) =
  counter_settings us ++
    match u with URecordRtt _ => [] | USetNTimeouts k => [k] end.
Proof. unfold counter_settings. rewrite omap_app. by destruct u. Qed.

(** The whole state after a run: the estimator has taken the samples in
    order, [m_lastRtt] and [m_nTimeouts] hold the last value written to
    them, and the rest is as before. *)
Lemma apply_updates_state fi us :
  apply_updates fi us =
  mkFaceInfo
    (foldl addMeasurement (m_rttEstimator fi) (recorded_samples us))
    (default (m_lastRtt fi) (last (recorded_samples us)))
    (m_lastInterestName fi)
    (default (m_nTimeouts fi) (last (counter_settings us)))
    (m_measurementExpiration fi) (m_timeoutEvent fi).
Proof.
  induction us as [|u us IH] using rev_ind; [by destruct fi|].
  rewrite apply_updates_snoc, recorded_samples_snoc, counter_settings_snoc, IH.
  destruct u as [rtt|k]; unfold apply_update, recordRtt, setNTimeouts; simpl.
  - by rewrite foldl_snoc, last_snoc, app_nil_r.
  - by rewrite last_snoc, app_nil_r.
Qed.

(** X1.  After any interleaving of [recordRtt] and [setNTimeouts] calls,
    [getLastRtt] is the sample of the last [recordRtt], and what it was
    before when there was no [recordRtt] among them. *)
Theorem updates_lastRtt fi us :
  getLastRtt (apply_updates fi us) =
  default (getLastRtt fi) (last (recorded_samples us)).
Proof. by rewrite apply_updates_state. Qed.

(** X2.  The estimator is fed exactly the samples of the [recordRtt] calls,
    in call order, whatever [setNTimeouts] calls come in between; so
    [getSrtt] depends on those samples alone. *)
Theorem updates_estimator fi us :
  m_rttEstimator (apply_updates fi us) =
    foldl addMeasurement (m_rttEstimator fi) (recorded_samples us) ∧
  getSrtt (apply_updates fi us) =
    getSmoothedRtt
      (foldl addMeasurement (m_rttEstimator fi) (recorded_samples us)).
Proof. by rewrite apply_updates_state. Qed.

(** X3.  [getNTimeouts] is the value of the last [setNTimeouts], and what
    it was before when there was none: [recordRtt] neither resets nor
    counts. *)
Theorem updates_nTimeouts fi us :
  getNTimeouts (apply_updates fi us) =
  default (getNTimeouts fi) (last (counter_settings us)).
Proof. by rewrite apply_updates_state. Qed.

(** X4.  [recordRtt] and [setNTimeouts] never touch the timers: both
    handles and the last Interest name stay, so against any scheduler
    [isTimeoutScheduled] answers after the calls as it did before. *)
Theorem updates_keep_timers fi us :
  m_timeoutEvent (apply_updates fi us) = m_timeoutEvent fi ∧
  m_measurementExpiration (apply_updates fi us) = m_measurementExpiration fi ∧
  m_lastInterestName (apply_updates fi us) = m_lastInterestName fi ∧
  ∀ (CB : Type) (s : Scheduler CB),
    isTimeoutScheduled s (apply_updates fi us) = isTimeoutScheduled s fi.
Proof. by rewrite apply_updates_state. Qed.

(** X5.  The sentinels cannot be mistaken for a measurement: on a FaceInfo
    that has just been constructed and then seen only samples of zero or
    more, [getLastRtt] is [RTT_NO_MEASUREMENT] exactly when no sample was
    recorded, and it is never [RTT_TIMEOUT]. *)
Theorem lastRtt_no_measurement_iff (opts : Options) us :
  Forall (λ rtt, 0 ≤ rtt) (recorded_samples us) →
  (getLastRtt (apply_updates (newFaceInfo opts) us) = RTT_NO_MEASUREMENT ↔
   recorded_samples us = []) ∧
  getLastRtt (apply_updates (newFaceInfo opts) us) ≠ RTT_TIMEOUT.
Proof.
  intros Hpos. rewrite apply_updates_state. unfold getLastRtt. simpl.
  destruct (last (recorded_samples us)) as [rtt|] eqn:Hlast; simpl.
  - assert (0 ≤ rtt) as Hrtt.
    { apply last_Some in Hlast as [l' Hl']. rewrite Hl' in Hpos.
      apply Forall_app in Hpos as [_ Hpos].
      exact (proj1 (Forall_singleton _ _) Hpos). }
    unfold RTT_NO_MEASUREMENT, RTT_TIMEOUT. split; [split|]; try lia.
    intros Hnil. by rewrite Hnil in Hlast.
  - apply last_None in Hlast. by rewrite Hlast.
Qed.

(** X6.  The order between the two kinds of calls does not matter: two
    runs that record the same samples in the same order and whose last
    [setNTimeouts], if any, gives the same value leave the FaceInfo in the
    same state. *)
Theorem updates_order_irrelevant fi us us' :
  recorded_samples us = recorded_samples us' →
  last (counter_settings us) = last (counter_settings us') →
  apply_updates fi us = apply_updates fi us'.
Proof. intros Hs Hc. by rewrite !apply_updates_state, Hs, Hc. Qed.
End FaceInfoUpdateFacts.

Lemma lastRtt_no_measurement_iff_witness :
  Forall (λ rtt, 0 ≤ rtt) (recorded_samples example_updates) ∧
  getLastRtt (apply_updates (newFaceInfo () : FaceInfo sample_log)
                            example_updates) ≠ RTT_NO_MEASUREMENT ∧
  getLastRtt (apply_updates (newFaceInfo () : FaceInfo sample_log)
                            example_updates) ≠ RTT_TIMEOUT.
Proof.
  assert (Forall (λ rtt, 0 ≤ rtt) (recorded_samples example_updates)) as Hpos
    by (repeat constructor; lia).
  destruct (lastRtt_no_measurement_iff (Estimator := sample_log) ()
              example_updates Hpos) as [Hno Hto].
  split; [exact Hpos|]. split; [|exact Hto].
  intros Heq. apply Hno in Heq. discriminate Heq.
Defined.

(** ** Runs of setMeasurementsLifetime *)

Section MeasurementsLifetimeFacts.
Context {Options : Type}.
Implicit Types (a : AsfMeasurements Options) (ls : list milliseconds).

Lemma setMeasurementsLifetimes_cons a l ls :
  setMeasurementsLifetimes a (l :: ls) =
  if 0 <? l
  then setMeasurementsLifetimes
         (mkAsfMeasurements l (m_rttEstimatorOpts a)) ls
  else AssertionFailed "measurementsLifetime > 0_ms".
Proof.
  simpl. unfold setMeasurementsLifetime. by destruct (0 <? l).
Qed.

(** X7.  A run of [setMeasurementsLifetime] calls returns exactly when
    every lifetime in it is positive; the lifetime is then the last one
    given (the old one for an empty run) and the estimator options are
    untouched. *)
Theorem setMeasurementsLifetimes_returns a ls a' :
  setMeasurementsLifetimes a ls = Returns a' ↔
  Forall (λ l, 0 < l) ls ∧
  a' = mkAsfMeasurements (default (getMeasurementsLifetime a) (last ls))
         (m_rttEstimatorOpts a).
Proof.
  revert a. induction ls as [|l ls IH]; intros a.
  - simpl. destruct a as [lt opts]. simpl. split.
    + intros [= <-]. by split.
    + by intros [_ ->].
  - rewrite setMeasurementsLifetimes_cons, Forall_cons, last_cons.
    destruct (0 <? l) eqn:Hl.
    + apply Z.ltb_lt in Hl. rewrite IH. simpl.
      destruct (last ls); simpl; intuition.
    + apply Z.ltb_ge in Hl. split; [done|]. intros [[Hpos _] _]. lia.
Qed.

(** X8.  The run stops at the assertion exactly when some lifetime in it
    is zero or negative, however many positive ones come before it. *)
Theorem setMeasurementsLifetimes_aborts a ls :
  setMeasurementsLifetimes a ls =
    AssertionFailed "measurementsLifetime > 0_ms" ↔
  Exists (λ l, l ≤ 0) ls.
Proof.
  revert a. induction ls as [|l ls IH]; intros a.
  - simpl. rewrite Exists_nil. split; [discriminate|done].
  - rewrite setMeasurementsLifetimes_cons, Exists_cons.
    destruct (0 <? l) eqn:Hl.
    + apply Z.ltb_lt in Hl. rewrite IH. intuition lia.
    + apply Z.ltb_ge in Hl. intuition.
Qed.

(** X9.  The configured lifetime stays positive: the in-class default is
    positive, and from a positive lifetime every run of
    [setMeasurementsLifetime] calls that returns ends with a positive
    one. *)
Theorem measurementsLifetime_stays_positive a ls a' :
  0 < DEFAULT_MEASUREMENTS_LIFETIME ∧
  (0 < getMeasurementsLifetime a →
   setMeasurementsLifetimes a ls = Returns a' →
   0 < getMeasurementsLifetime a').
Proof.
  split; [done|]. revert a.
  induction ls as [|l ls IH]; intros a Ha Hrun.
  - simpl in Hrun. by injection Hrun as <-.
  - rewrite setMeasurementsLifetimes_cons in Hrun.
    destruct (0 <? l) eqn:Hl; [|discriminate Hrun].
    apply Z.ltb_lt in Hl. by apply IH in Hrun.
Qed.
End MeasurementsLifetimeFacts.

Lemma updates_order_irrelevant_witness :
  recorded_samples example_updates =
    recorded_samples [USetNTimeouts 9; URecordRtt 50; URecordRtt 0;
                      USetNTimeouts 5] ∧
  apply_updates example_face example_updates =
    apply_updates example_face
      [USetNTimeouts 9; URecordRtt 50; URecordRtt 0; USetNTimeouts 5].
Proof.
  split; [reflexivity|].
  apply (updates_order_irrelevant example_face example_updates
           [USetNTimeouts 9; URecordRtt 50; URecordRtt 0; USetNTimeouts 5]);
    reflexivity.
Defined.

Lemma setMeasurementsLifetimes_returns_witness :
  Forall (λ l, 0 < l) [7; 300; 20] ∧
  setMeasurementsLifetimes example_asf [7; 300; 20] =
    Returns (mkAsfMeasurements 20 ()).
Proof.
  assert (Forall (λ l, 0 < l) [7; 300; 20]) as Hpos
    by (repeat constructor; lia).
  split; [exact Hpos|].
  exact (proj2 (setMeasurementsLifetimes_returns example_asf [7; 300; 20]
                  (mkAsfMeasurements 20 ())) (conj Hpos eq_refl)).
Defined.

Lemma setMeasurementsLifetimes_aborts_witness :
  Exists (λ l, l ≤ 0) [7; 0; 20] ∧
  setMeasurementsLifetimes example_asf [7; 0; 20] =
    AssertionFailed "measurementsLifetime > 0_ms".
Proof.
  assert (Exists (λ l, l ≤ 0) [7; 0; 20]) as Hbad.
  { apply Exists_cons_tl, Exists_cons_hd. lia. }
  split; [exact Hbad|].
  exact (proj2 (setMeasurementsLifetimes_aborts example_asf [7; 0; 20]) Hbad).
Defined.

Lemma measurementsLifetime_stays_positive_witness :
  0 < getMeasurementsLifetime example_asf ∧
  setMeasurementsLifetimes example_asf [7; 300] =
    Returns (mkAsfMeasurements 300 ()) ∧
  0 < getMeasurementsLifetime (mkAsfMeasurements 300 () : AsfMeasurements ()).
Proof.
  assert (0 < getMeasurementsLifetime example_asf) as Hold by reflexivity.
  assert (setMeasurementsLifetimes example_asf [7; 300] =
          Returns (mkAsfMeasurements 300 ())) as Hrun by reflexivity.
  split; [exact Hold|]. split; [exact Hrun|].
  exact (proj2 (measurementsLifetime_stays_positive example_asf [7; 300]
                  (mkAsfMeasurements 300 ())) Hold Hrun).
Defined.

(** ** NamespaceInfo *)

Section NamespaceInfoFacts.
Context {Options Estimator : Type}.
Implicit Types (ni : NamespaceInfo Options Estimator).
Implicit Types (ops : list ProbeFlagOp).

Lemma apply_flag_ops_snoc ni ops op :
  apply_flag_ops ni (ops ++ [op]) = apply_flag_op (apply_flag_ops ni ops) op.
Proof. apply foldl_snoc. Qed.

(** X10.  The two probing flags are independent: after any run of the two
    setters each flag holds the last value given to its own setter, and
    what it held before when its setter was not called. *)
Theorem probe_flags_last_set ni ops :
  isProbingDue (apply_flag_ops ni ops) =
    default (isProbingDue ni) (last (probing_due_settings ops)) ∧
  isFirstProbeScheduled (apply_flag_ops ni ops) =
    default (isFirstProbeScheduled ni) (last (first_probe_settings ops)).
Proof.
  induction ops as [|op ops [IH1 IH2]] using rev_ind; [done|].
  rewrite apply_flag_ops_snoc.
  unfold probing_due_settings, first_probe_settings. rewrite !omap_app.
  fold (probing_due_settings ops) (first_probe_settings ops).
  destruct op as [b|b]; simpl; rewrite ?app_nil_r, ?last_snoc; done.
Qed.

(** X11.  The flag setters leave everything else alone: the face map, the
    estimator options and the measurement lifetime given at construction
    are as before after any run of them. *)
Theorem probe_flags_keep_faces ni ops :
  m_fiMap (apply_flag_ops ni ops) = m_fiMap ni ∧
  m_rttEstimatorOpts_ns (apply_flag_ops ni ops) = m_rttEstimatorOpts_ns ni ∧
  m_measurementLifetime (apply_flag_ops ni ops) = m_measurementLifetime ni.
Proof.
  induction ops as [|op ops IH] using rev_ind; [done|].
  rewrite apply_flag_ops_snoc. by destruct op.
Qed.
End NamespaceInfoFacts.
